(** * KZG polynomial commitments: a shallow embedding of
    [src/polynomial.rs] and [src/kzg_commit.rs].

    Modelling conventions.
    - [Fr] (oblast_demo's scalar field of BLS12-381) is an integer in
      [0, r) with every operation reduced modulo the group order [r].
    - Rust panics (out-of-bounds indexing, usize underflow in a debug
      build) are [None] in the [option] monad; [Result] is [result].
    - The group library (P1, P2, generators, addition, negation, scalar
      multiplication, default point, [verify_pairings]) is the class
      [CurveLib]; [DlogCurve] is a concrete instance representing each
      point of the prime-order groups by its discrete logarithm. *)

From Stdlib Require Import Strings.String NArith ZArith List Lia Bool Eqdep_dec Ring Strings.Byte.
Import ListNotations.
Open Scope Z_scope.

(** ** The scalar field *)

(** The BLS12-381 group order returned by [curve_order()]. *)
Definition r : Z :=
  0x73eda753299d7d483339d80809a1d80553bda402fffe5bfeffffffff00000001.

Lemma r_pos : 0 < r.
Proof. unfold r; lia. Qed.

Definition in_range (v : Z) : bool := (0 <=? v) && (v <? r).

Record Fr := mkFr { fr_val : Z; fr_range : in_range fr_val = true }.

Definition fr0 : Fr := mkFr 0 eq_refl.

(** Build a scalar from a value that is known to be in range; the
    proof is [eq_refl] once [v] is a numeral, so equal values give
    convertible scalars. *)
Definition fr_checked_aux (v : Z) (b : bool) : in_range v = b -> Fr :=
  match b with
  | true => fun H => mkFr v H
  | false => fun _ => fr0
  end.

Definition fr_checked (v : Z) : Fr := fr_checked_aux v (in_range v) eq_refl.

Definition fr_of_Z (z : Z) : Fr := fr_checked (z mod r).

Lemma fr_eq (a b : Fr) : fr_val a = fr_val b -> a = b.
Proof.
  destruct a as [va Ha], b as [vb Hb]; simpl; intros ->.
  f_equal. apply UIP_dec, bool_dec.
Qed.

Lemma in_range_mod (z : Z) : in_range (z mod r) = true.
Proof.
  unfold in_range. pose proof (Z.mod_pos_bound z r r_pos).
  apply andb_true_iff; split; [apply Z.leb_le | apply Z.ltb_lt]; lia.
Qed.

Lemma fr_checked_val (v : Z) : in_range v = true -> fr_val (fr_checked v) = v.
Proof.
  intros H. unfold fr_checked.
  assert (Hgen : forall b (E : in_range v = b), b = true ->
            fr_val (fr_checked_aux v b E) = v)
    by (intros b E Hb; destruct b; [reflexivity | discriminate]).
  apply Hgen; exact H.
Qed.

Lemma fr_of_Z_val (z : Z) : fr_val (fr_of_Z z) = z mod r.
Proof. apply fr_checked_val, in_range_mod. Qed.

Lemma fr_val_range (a : Fr) : 0 <= fr_val a < r.
Proof.
  destruct a as [v H]; simpl. unfold in_range in H.
  apply andb_true_iff in H as [H1 H2].
  apply Z.leb_le in H1; apply Z.ltb_lt in H2; lia.
Qed.

Lemma fr_val_mod (a : Fr) : fr_val a mod r = fr_val a.
Proof. apply Z.mod_small, fr_val_range. Qed.

Definition fr1 : Fr := fr_of_Z 1.
Definition fr_add (a b : Fr) : Fr := fr_of_Z (fr_val a + fr_val b).
Definition fr_mul (a b : Fr) : Fr := fr_of_Z (fr_val a * fr_val b).
Definition fr_sub (a b : Fr) : Fr := fr_of_Z (fr_val a - fr_val b).
Definition fr_neg (a : Fr) : Fr := fr_of_Z (- fr_val a).

(** [Fr::from_u64]. *)
Definition from_u64 (n : Z) : Fr := fr_of_Z n.

(** Modular exponentiation by square-and-multiply, as
    [BigUint::modpow] computes it. *)
Fixpoint pow_mod_pos (b : Z) (e : positive) (m : Z) : Z :=
  match e with
  | xH => b mod m
  | xO e' => let h := pow_mod_pos b e' m in (h * h) mod m
  | xI e' => let h := pow_mod_pos b e' m in (h * h * b) mod m
  end.

Definition modpow (b e m : Z) : Z :=
  match e with
  | Zpos p => pow_mod_pos b p m
  | _ => 1 mod m
  end.

(** Division in the field: multiplication by the Fermat inverse
    [b ^ (r - 2)]. The code only ever divides by [1]. *)
Definition fr_inv (b : Fr) : Fr := fr_of_Z (modpow (fr_val b) (r - 2) r).
Definition fr_div (a b : Fr) : Fr := fr_mul a (fr_inv b).

Declare Scope fr_scope.
Delimit Scope fr_scope with fr.
Infix "+" := fr_add : fr_scope.
Infix "*" := fr_mul : fr_scope.
Infix "-" := fr_sub : fr_scope.
Infix "/" := fr_div : fr_scope.
Notation "- a" := (fr_neg a) : fr_scope.

(** *** Field lemmas *)

Ltac fr_unfold :=
  apply fr_eq; unfold fr_add, fr_mul, fr_sub, fr_neg, fr1, fr0 in *;
  repeat rewrite fr_of_Z_val; simpl fr_val.

Lemma fr_ring_theory : ring_theory fr0 fr1 fr_add fr_mul fr_sub fr_neg (@eq Fr).
Proof.
  constructor; intros; fr_unfold.
  - rewrite Z.add_0_l. apply fr_val_mod.
  - rewrite Z.add_comm; reflexivity.
  - rewrite Zplus_mod_idemp_l, Zplus_mod_idemp_r, Z.add_assoc; reflexivity.
  - rewrite Zmult_mod_idemp_l, Z.mul_1_l. apply fr_val_mod.
  - rewrite Z.mul_comm; reflexivity.
  - rewrite Zmult_mod_idemp_l, Zmult_mod_idemp_r, Z.mul_assoc; reflexivity.
  - rewrite Zmult_mod_idemp_l, Zplus_mod_idemp_l, Zplus_mod_idemp_r.
    f_equal; ring.
  - rewrite Zplus_mod_idemp_r. f_equal; ring.
  - rewrite Zplus_mod_idemp_r, Z.add_opp_diag_r. reflexivity.
Qed.

Add Ring fr_ring : fr_ring_theory.

Lemma pow_mod_pos_spec (b : Z) (p : positive) (m : Z) :
  pow_mod_pos b p m = (b ^ Zpos p) mod m.
Proof.
  induction p as [p IH | p IH |]; simpl pow_mod_pos.
  - rewrite IH.
    replace (Zpos p~1) with (Zpos p + Zpos p + 1) by lia.
    rewrite !Z.pow_add_r, Z.pow_1_r by lia.
    set (A := b ^ Zpos p).
    assert (E : (A mod m * (A mod m)) mod m = (A * A) mod m)
      by (rewrite Zmult_mod_idemp_l, Zmult_mod_idemp_r; reflexivity).
    rewrite <- (Zmult_mod_idemp_l (A mod m * (A mod m)) b), E,
      Zmult_mod_idemp_l.
    reflexivity.
  - rewrite IH.
    replace (Zpos p~0) with (Zpos p + Zpos p) by lia.
    rewrite Z.pow_add_r by lia.
    rewrite Zmult_mod_idemp_l, Zmult_mod_idemp_r. reflexivity.
  - rewrite Z.pow_1_r. reflexivity.
Qed.

Lemma modpow_spec (b e m : Z) : 0 <= e -> modpow b e m = (b ^ e) mod m.
Proof.
  intros He. destruct e as [|p|p]; simpl modpow.
  - reflexivity.
  - apply pow_mod_pos_spec.
  - lia.
Qed.

Lemma fr_inv_1 : fr_inv fr1 = fr1.
Proof.
  unfold fr_inv. apply fr_eq. rewrite fr_of_Z_val.
  change (fr_val fr1) with 1.
  rewrite modpow_spec by (unfold r; lia).
  rewrite Z.pow_1_l by (unfold r; lia). reflexivity.
Qed.

Lemma fr_div_1 (a : Fr) : fr_div a fr1 = a.
Proof. unfold fr_div. rewrite fr_inv_1. ring. Qed.

Example fr_add_ex : fr_add (from_u64 2) (from_u64 3) = from_u64 5.
Proof. reflexivity. Qed.
Example fr_neg_ex : fr_add (fr_neg (from_u64 2)) (from_u64 3) = fr1.
Proof. vm_compute. reflexivity. Qed.

(** ** Panics, results and list access *)

(** The [option] monad: [None] is a Rust panic. *)
Definition obind {A B : Type} (m : option A) (f : A -> option B) : option B :=
  match m with Some a => f a | None => None end.
Notation "x <- m ;; k" := (obind m (fun x => k))
  (at level 61, m at next level, right associativity).

Inductive result (A E : Type) : Type :=
| Ok (a : A)
| Err (e : E).
Arguments Ok {A E} a.
Arguments Err {A E} e.

(** [v[n]]: panics out of bounds. *)
Definition read {A : Type} (l : list A) (n : nat) : option A := nth_error l n.

(** [v[n] = x]: panics out of bounds. *)
Fixpoint list_set {A : Type} (l : list A) (n : nat) (x : A) : option (list A) :=
  match l, n with
  | [], _ => None
  | _ :: t, O => Some (x :: t)
  | y :: t, S n' => option_map (cons y) (list_set t n' x)
  end.

(** [n - 1] on a [usize]: underflow panics (overflow checks on). *)
Definition usize_pred (n : nat) : option nat :=
  match n with O => None | S m => Some m end.

(** ** [src/polynomial.rs] *)

Record Polynomial := { coefficients : list Fr }.

Definition from_coefficients (cs : list Fr) : Polynomial :=
  {| coefficients := cs |}.

(** The body of [for i in 1..len]: [sum += c[i] * variable;
    variable *= variable;], over the coefficients after the first. *)
Fixpoint evalaute_loop (cs : list Fr) (sum variable : Fr) : Fr :=
  match cs with
  | [] => sum
  | c :: cs' => evalaute_loop cs' (fr_add sum (fr_mul c variable))
                  (fr_mul variable variable)
  end.

(** [Polynomial::evalaute]: [self.coefficients[0]] panics on an empty
    polynomial. *)
Definition evalaute (p : Polynomial) (x : Fr) : option Fr :=
  match coefficients p with
  | [] => None
  | c0 :: rest => Some (evalaute_loop rest c0 x)
  end.

(** [impl fmt::Display for Polynomial]. [{:?}] on a [usize] prints its
    decimal digits; [{:?}] on an [Fr] is oblast_demo's [Debug] format,
    taken as the parameter [fr_debug]. *)
Fixpoint uint_string (u : Decimal.uint) : string :=
  match u with
  | Decimal.Nil => EmptyString
  | Decimal.D0 u => ("0" ++ uint_string u)%string
  | Decimal.D1 u => ("1" ++ uint_string u)%string
  | Decimal.D2 u => ("2" ++ uint_string u)%string
  | Decimal.D3 u => ("3" ++ uint_string u)%string
  | Decimal.D4 u => ("4" ++ uint_string u)%string
  | Decimal.D5 u => ("5" ++ uint_string u)%string
  | Decimal.D6 u => ("6" ++ uint_string u)%string
  | Decimal.D7 u => ("7" ++ uint_string u)%string
  | Decimal.D8 u => ("8" ++ uint_string u)%string
  | Decimal.D9 u => ("9" ++ uint_string u)%string
  end.

Definition usize_debug (n : nat) : string := uint_string (Nat.to_uint n).

(** [for (i, c) in self.coefficients.iter().enumerate()]: the first
    coefficient is pushed alone, every later one as [" + {c:?}x^{i:?}"]. *)
Fixpoint fmt_loop (fr_debug : Fr -> string) (cs : list Fr) (i : nat) (s : string)
    : string :=
  match cs with
  | [] => s
  | c :: cs' =>
      let s' := if (i =? 0)%nat then (s ++ fr_debug c)%string
                else (s ++ " + " ++ fr_debug c ++ "x^" ++ usize_debug i)%string in
      fmt_loop fr_debug cs' (S i) s'
  end.

(** The text [fmt] writes ([write!(f, "{}", s)]). *)
Definition fmt (fr_debug : Fr -> string) (p : Polynomial) : string :=
  fmt_loop fr_debug (coefficients p) 0 EmptyString.

(** Reference evaluations, from the spec's description. The value of
    the polynomial by Horner's rule: *)
Fixpoint horner (cs : list Fr) (x : Fr) : Fr :=
  match cs with
  | [] => fr0
  | c :: cs' => fr_add c (fr_mul x (horner cs' x))
  end.

(** [sum += c_i * x^i] with [x^i = x^(i-1) * x]: *)
Fixpoint eval_incr_loop (cs : list Fr) (sum pw x : Fr) : Fr :=
  match cs with
  | [] => sum
  | c :: cs' => eval_incr_loop cs' (fr_add sum (fr_mul c pw)) (fr_mul pw x) x
  end.

Definition eval_incremental (cs : list Fr) (x : Fr) : Fr :=
  match cs with
  | [] => fr0
  | c0 :: rest => eval_incr_loop rest c0 x x
  end.

(** ** [compute_quotient] (src/kzg_commit.rs) *)

(** [for i in (0..=divisor_pos).rev()]: [k] iterations, [i = k-1 .. 0];
    [dividend[difference + i] = dividend[difference + i] - divisor[i] * q]. *)
Fixpoint sub_loop (divisor : list Fr) (term_quotient : Fr) (difference : nat)
    (k : nat) (dividend : list Fr) : option (list Fr) :=
  match k with
  | O => Some dividend
  | S i =>
      x <- read divisor i ;;
      z <- read dividend (difference + i) ;;
      dividend' <- list_set dividend (difference + i)
                     (fr_sub z (fr_mul x term_quotient)) ;;
      sub_loop divisor term_quotient difference i dividend'
  end.

(** [while difference >= 0 { ... }]; the fuel is never exhausted when it
    exceeds the initial [difference]. *)
Fixpoint div_loop (fuel : nat) (divisor : list Fr) (divisor_pos : nat)
    (dividend coefficients : list Fr) (dividend_pos : nat) (difference : Z)
    : option (list Fr) :=
  if 0 <=? difference then
    match fuel with
    | O => None
    | S fuel' =>
        a <- read dividend dividend_pos ;;
        b <- read divisor divisor_pos ;;
        let term_quotient := fr_div a b in
        dividend' <- sub_loop divisor term_quotient (Z.to_nat difference)
                       (S divisor_pos) dividend ;;
        dividend_pos' <- usize_pred dividend_pos ;;
        div_loop fuel' divisor divisor_pos dividend'
          (coefficients ++ [term_quotient]) dividend_pos' (difference - 1)
    end
  else Some coefficients.

Definition compute_quotient (dividend divisor : Polynomial) : option Polynomial :=
  let dividend_cs := coefficients dividend in
  dividend_pos <- usize_pred (length dividend_cs) ;;
  divisor_pos <- usize_pred (length (coefficients divisor)) ;;
  let difference := Z.of_nat dividend_pos - Z.of_nat divisor_pos in
  cs <- div_loop (S (length dividend_cs)) (coefficients divisor) divisor_pos
          dividend_cs [] dividend_pos difference ;;
  Some {| coefficients := rev cs |}.

Definition fs (l : list Z) : list Fr := map from_u64 l.

Example evalaute_ex : evalaute (from_coefficients (fs [1; 3; 2])) (from_u64 2)
                      = Some (from_u64 15).
Proof. vm_compute. reflexivity. Qed.

Example quotient_ex :
  compute_quotient (from_coefficients (fs [1; 3; 2]))
    (from_coefficients [fr_neg (from_u64 2); from_u64 1])
  = Some (from_coefficients (fs [7; 2])).
Proof. vm_compute. reflexivity. Qed.

(** ** Big-endian bytes ([BigUint::from_bytes_be], [to_bytes_be]) *)

Definition from_bytes_be (bs : list Byte.byte) : Z :=
  fold_left (fun acc b => acc * 256 + Z.of_N (Byte.to_N b)) bs 0.

Definition byte_of_Z (v : Z) : Byte.byte :=
  match Byte.of_N (Z.to_N (v mod 256)) with Some b => b | None => Byte.x00 end.

(** [n] big-endian bytes of [v]: [to_bytes_be] copied into the tail of
    a zeroed [n]-byte buffer. *)
Fixpoint be_bytes (n : nat) (v : Z) : list Byte.byte :=
  match n with
  | O => []
  | S n' => be_bytes n' (v / 256) ++ [byte_of_Z v]
  end.

Lemma byte_of_Z_val (v : Z) : Z.of_N (Byte.to_N (byte_of_Z v)) = v mod 256.
Proof.
  unfold byte_of_Z. pose proof (Z.mod_pos_bound v 256 ltac:(lia)) as Hb.
  destruct (Byte.of_N (Z.to_N (v mod 256))) as [b|] eqn:E.
  - apply Byte.to_of_N in E. rewrite E. lia.
  - apply Byte.of_N_None_iff in E. lia.
Qed.

Lemma from_bytes_be_app (l : list Byte.byte) (b : Byte.byte) :
  from_bytes_be (l ++ [b]) = from_bytes_be l * 256 + Z.of_N (Byte.to_N b).
Proof. unfold from_bytes_be. rewrite fold_left_app. reflexivity. Qed.

Lemma from_be_bytes (n : nat) (v : Z) :
  from_bytes_be (be_bytes n v) = v mod 256 ^ Z.of_nat n.
Proof.
  revert v; induction n as [|n IH]; intros v; simpl be_bytes.
  - rewrite Z.mod_1_r. reflexivity.
  - rewrite from_bytes_be_app, IH, byte_of_Z_val.
    rewrite Nat2Z.inj_succ, Z.pow_succ_r by lia.
    rewrite (Z.rem_mul_r v 256 (256 ^ Z.of_nat n)) by lia.
    lia.
Qed.

(** ** The group library *)

(** What the code uses of oblast_demo's [P1], [P2] and
    [verify_pairings]. [verify_pairings a1 a2 b1 b2] decides
    [e(a1, a2) = e(b1, b2)] for the pairing [e]. [Scalar] values are
    scalars modulo [r], as [Fr] values are. *)
Class CurveLib := {
  P1 : Type;
  P2 : Type;
  GT : Type;
  p1_add : P1 -> P1 -> P1;
  p1_neg : P1 -> P1;
  p1_mul : Fr -> P1 -> P1;
  p1_default : P1;
  p1_generator : P1;
  p2_add : P2 -> P2 -> P2;
  p2_neg : P2 -> P2;
  p2_mul : Fr -> P2 -> P2;
  p2_generator : P2;
  pairing : P1 -> P2 -> GT;
  verify_pairings : P1 -> P2 -> P1 -> P2 -> bool;
  verify_pairings_spec : forall a1 a2 b1 b2,
    verify_pairings a1 a2 b1 b2 = true <-> pairing a1 a2 = pairing b1 b2
}.

(** [Scalar::from_fr_bytes]: the big-endian value as a scalar; the
    library asserts [blst_scalar_fr_check] (the value is below the group
    order) and panics ([None]) otherwise. *)
Definition scalar_from_fr_bytes (bs : list Byte.byte) : option Fr :=
  if from_bytes_be bs <? r then Some (fr_of_Z (from_bytes_be bs)) else None.

(** [curve_order()]. *)
Definition curve_order : Z := r.

Inductive KZGErrors := SecretMustBeLessThanTheOrderOfTheGroup.

(** The rejection loop of [KZG::new_rand]: [draws] are the successive
    32-byte buffers [rng.fill_bytes] writes; the first one whose value is
    below the group order is the secret. [None]: the loop has not ended
    within the given draws. *)
Fixpoint rand_secret (draws : list (list Byte.byte)) : option (list Byte.byte) :=
  match draws with
  | [] => None
  | secret :: rest =>
      if curve_order <=? from_bytes_be secret then rand_secret rest else Some secret
  end.

Section Kzg.
Context {C : CurveLib}.

Record PP := {
  points_in_g1 : list P1;
  point_in_g2 : P2
}.

Record KZG := { kzg_public_parameter : PP }.

Record Commitment := {
  element : P1;
  polynomial : Polynomial;
  public_parameter : PP
}.

Record Opening := {
  value : Fr;
  proof : P1
}.

(** The body of [for i in 0..=degree] in [setup_internal]:
    [BigUint::from_slice(&[i as u32])] keeps the low 32 bits of [i]. *)
Definition power_of_tau (bytes_tau : Z) (i : N) : option P1 :=
  let i_as_bigint := Z.of_N i mod 2 ^ 32 in
  let s_i_as_bigint := modpow bytes_tau i_as_bigint curve_order in
  let s_i_bytes := be_bytes 32 s_i_as_bigint in
  s_i_scalar <- scalar_from_fr_bytes s_i_bytes ;;
  Some (p1_mul s_i_scalar p1_generator).

(** The loop [for i in 0..=degree], pushing each point onto
    [points_in_g1]. *)
Fixpoint setup_points (bytes_tau : Z) (is : list nat) (points_in_g1 : list P1)
    : option (list P1) :=
  match is with
  | [] => Some points_in_g1
  | i :: rest =>
      result <- power_of_tau bytes_tau (N.of_nat i) ;;
      setup_points bytes_tau rest (points_in_g1 ++ [result])
  end.

(** [KZG::setup_internal]; [degree : usize] is an [N]. [None]: a panic. *)
Definition setup_internal (tau : list Byte.byte) (degree : N)
    : option (result KZG KZGErrors) :=
  let modulus := curve_order in
  let bytes_tau := from_bytes_be tau in
  if modulus <? bytes_tau then Some (Err SecretMustBeLessThanTheOrderOfTheGroup)
  else
    points_in_g1 <- setup_points bytes_tau (seq 0 (S (N.to_nat degree))) [] ;;
    scalar <- scalar_from_fr_bytes tau ;;
    let result_in_g2 := p2_mul scalar p2_generator in
    Some (Ok {| kzg_public_parameter :=
                  {| points_in_g1 := points_in_g1; point_in_g2 := result_in_g2 |} |}).

(** [KZG::new]. *)
Definition new (tau : list Byte.byte) (degree : N) : option (result KZG KZGErrors) :=
  setup_internal tau degree.

(** [KZG::new_rand]. *)
Definition new_rand (draws : list (list Byte.byte)) (degree : N)
    : option (result KZG KZGErrors) :=
  secret <- rand_secret draws ;;
  setup_internal secret degree.

(** [KZG::commit]: [coefficients.iter().zip(basis.iter())]. *)
Definition commit (pp : PP) (p : Polynomial) : result Commitment KZGErrors :=
  let basis := points_in_g1 pp in
  let coefficients := coefficients p in
  let result :=
    fold_left (fun acc '(coefficient, el) => p1_add acc (p1_mul coefficient el))
      (combine coefficients basis) p1_default in
  Ok {| element := result; polynomial := p; public_parameter := pp |}.

(** [Commitment::open_at]. *)
Definition open_at (c : Commitment) (point : Fr)
    : option (result Opening KZGErrors) :=
  result <- evalaute (polynomial c) point ;;
  let divisor := from_coefficients [fr_neg point; from_u64 1] in
  quotient_polynomial <- compute_quotient (polynomial c) divisor ;;
  Some (match commit (public_parameter c) quotient_polynomial with
        | Ok commitment => Ok {| value := result; proof := element commitment |}
        | Err e => Err e
        end).

(** [Opening::verify]. *)
Definition verify (o : Opening) (input : Fr) (commitment : Commitment) : bool :=
  let y_p1 := p1_mul (value o) p1_generator in
  let commitment_minus_y := p1_add (element commitment) (p1_neg y_p1) in
  let z_p2 := p2_mul input p2_generator in
  let s_minus_z := p2_add (point_in_g2 (public_parameter commitment)) (p2_neg z_p2) in
  verify_pairings commitment_minus_y p2_generator (proof o) s_minus_z.

End Kzg.

(** ** A concrete group library *)

(** Each of [G1], [G2], [GT] is cyclic of prime order [r]; a point is
    its discrete logarithm to the generator, and the pairing multiplies
    logarithms. *)
Definition fr_eqb (a b : Fr) : bool := Z.eqb (fr_val a) (fr_val b).

Lemma fr_eqb_spec (a b : Fr) : fr_eqb a b = true <-> a = b.
Proof.
  unfold fr_eqb. rewrite Z.eqb_eq. split; [apply fr_eq | intros ->; reflexivity].
Qed.

Lemma dlog_verify_pairings_spec (a1 a2 b1 b2 : Fr) :
  fr_eqb (fr_mul a1 a2) (fr_mul b1 b2) = true <-> fr_mul a1 a2 = fr_mul b1 b2.
Proof. apply fr_eqb_spec. Qed.

Instance DlogCurve : CurveLib := {
  P1 := Fr; P2 := Fr; GT := Fr;
  p1_add := fr_add; p1_neg := fr_neg; p1_mul := fr_mul;
  p1_default := fr0; p1_generator := fr1;
  p2_add := fr_add; p2_neg := fr_neg; p2_mul := fr_mul; p2_generator := fr1;
  pairing := fr_mul;
  verify_pairings a1 a2 b1 b2 := fr_eqb (fr_mul a1 a2) (fr_mul b1 b2);
  verify_pairings_spec := dlog_verify_pairings_spec
}.

Definition zero_tau : list Byte.byte := be_bytes 32 0.

(** The test vector with [tau = 0] and [f = X]: [setup] of degree [2]
    gives the G1 points [1, 0, 0] and the G2 point [0], and the
    commitment to [[0, 1]] is the identity. *)
Definition example_commitment : @Commitment DlogCurve :=
  {| element := fr0; polynomial := from_coefficients (fs [0; 1]);
     public_parameter := {| points_in_g1 := fs [1; 0; 0]; point_in_g2 := fr0 |} |}.

(** The public parameter of [setup] with [tau = 0] and degree [2]. *)
Definition example_kzg : @KZG DlogCurve :=
  {| kzg_public_parameter := {| points_in_g1 := fs [1; 0; 0]; point_in_g2 := fr0 |} |}.

(** The polynomial of the repository's [test_opening] vectors, opened
    at [15]; the expected value in the test is [6099236329206434206]. *)
Definition test_opening_poly : list Fr :=
  fs [1; 2; 3; 4; 7; 7; 7; 7; 13; 13; 13; 13; 13; 13; 13; 13].

(** The group order as a 32-byte big-endian secret. *)
Definition order_tau : list Byte.byte := be_bytes 32 curve_order.

(** ** Reference definitions from the spec *)

(** [Σ coefficient_i * pp.points_in_g1[i]] for [i] in
    [0..min(len(coefficients), len(points_in_g1))], from the identity. *)
Definition commit_sum {C : CurveLib} (pp : PP) (cs : list Fr) : P1 :=
  fold_left (fun acc i =>
      p1_add acc (p1_mul (nth i cs fr0) (nth i (points_in_g1 pp) p1_default)))
    (seq 0 (Nat.min (length cs) (length (points_in_g1 pp)))) p1_default.

(** Coefficient-wise sum and product of polynomials. *)
Fixpoint poly_add (p q : list Fr) : list Fr :=
  match p, q with
  | [], _ => q
  | _, [] => p
  | a :: p', b :: q' => fr_add a b :: poly_add p' q'
  end.

Fixpoint poly_mul (p q : list Fr) : list Fr :=
  match p with
  | [] => []
  | a :: p' => poly_add (map (fr_mul a) q) (fr0 :: poly_mul p' q)
  end.

(** [q * (X - z) + f(z)]. *)
Definition reconstruct (q : list Fr) (z fz : Fr) : list Fr :=
  poly_add (poly_mul q [fr_neg z; fr1]) [fz].

(** Synthetic division by [X - z]: the Horner values of the proper
    suffixes of [f] are the quotient's coefficients. *)
Fixpoint suffix_values (l : list Fr) (z : Fr) : list Fr :=
  match l with
  | [] => []
  | c :: t => horner (c :: t) z :: suffix_values t z
  end.

(** Powers and sums in the field. *)
Fixpoint fr_pow (x : Fr) (n : nat) : Fr :=
  match n with O => fr1 | S n' => fr_mul x (fr_pow x n') end.

Fixpoint fr_sum (l : list Fr) : Fr :=
  match l with [] => fr0 | a :: t => fr_add a (fr_sum t) end.

(** Equality of coefficient lists up to trailing zeros. *)
Definition peq (p q : list Fr) : Prop := forall j, nth j p fr0 = nth j q fr0.

(** The point the loop of [setup_internal] computes at index [i], once
    the scalar check has passed. *)
Definition power_point {C : CurveLib} (bytes_tau : Z) (i : N) : P1 :=
  p1_mul (fr_of_Z (modpow bytes_tau (Z.of_N i mod 2 ^ 32) curve_order)) p1_generator.

(** ** Properties *)

(** *** Evaluation *)

Lemma eval_incr_loop_horner (cs : list Fr) (sum pw x : Fr) :
  eval_incr_loop cs sum pw x = fr_add sum (fr_mul pw (horner cs x)).
Proof.
  revert sum pw; induction cs as [|c cs IH]; intros sum pw; simpl.
  - ring.
  - rewrite IH. ring.
Qed.

Lemma eval_incremental_horner (cs : list Fr) (x : Fr) :
  eval_incremental cs x = horner cs x.
Proof.
  destruct cs as [|c0 rest]; [reflexivity|].
  simpl. rewrite eval_incr_loop_horner. reflexivity.
Qed.

(** *** Setup *)

Lemma from_be_bytes_32 (v : Z) :
  0 <= v < curve_order -> from_bytes_be (be_bytes 32 v) = v.
Proof.
  intros Hv. rewrite from_be_bytes. apply Z.mod_small.
  unfold curve_order, r in *. simpl Z.of_nat. lia.
Qed.

Section KzgProps.
Context {C : CurveLib}.

Lemma scalar_from_fr_bytes_small (v : Z) :
  0 <= v < curve_order -> scalar_from_fr_bytes (be_bytes 32 v) = Some (fr_of_Z v).
Proof.
  intros Hv. unfold scalar_from_fr_bytes. rewrite from_be_bytes_32 by exact Hv.
  replace (v <? r) with true by (symmetry; apply Z.ltb_lt; unfold curve_order in Hv; lia).
  reflexivity.
Qed.

(** The scalar check in the loop always passes: [modpow] reduces modulo
    the group order. *)
Lemma power_of_tau_some (t : Z) (i : N) :
  power_of_tau t i = Some (power_point t i).
Proof.
  unfold power_of_tau, power_point.
  rewrite scalar_from_fr_bytes_small; [reflexivity|].
  rewrite modpow_spec by (apply Z.mod_pos_bound; lia).
  apply Z.mod_pos_bound. unfold curve_order. exact r_pos.
Qed.

Lemma setup_points_map (t : Z) (is : list nat) (acc : list P1) :
  setup_points t is acc = Some (acc ++ map (fun i => power_point t (N.of_nat i)) is).
Proof.
  revert acc; induction is as [|i is IH]; intros acc; cbn [setup_points map].
  - rewrite app_nil_r. reflexivity.
  - rewrite power_of_tau_some. cbn [obind]. rewrite IH, <- app_assoc. reflexivity.
Qed.

(** [setup_internal] in three cases: the error above the group order, a
    panic of [Scalar::from_fr_bytes(tau)] at the order, the public
    parameter below it. *)
Lemma setup_internal_eq (tau : list Byte.byte) (degree : N) :
  setup_internal tau degree =
  if curve_order <? from_bytes_be tau then Some (Err SecretMustBeLessThanTheOrderOfTheGroup)
  else if from_bytes_be tau <? curve_order then
    Some (Ok {| kzg_public_parameter :=
      {| points_in_g1 := map (fun i => power_point (from_bytes_be tau) (N.of_nat i))
                           (seq 0 (S (N.to_nat degree)));
         point_in_g2 := p2_mul (fr_of_Z (from_bytes_be tau)) p2_generator |} |})
  else None.
Proof.
  unfold setup_internal. destruct (curve_order <? from_bytes_be tau); [reflexivity|].
  rewrite setup_points_map. cbn [obind app]. unfold scalar_from_fr_bytes.
  change r with curve_order.
  destruct (from_bytes_be tau <? curve_order); reflexivity.
Qed.

Lemma setup_internal_lt (tau : list Byte.byte) (degree : N) :
  from_bytes_be tau < curve_order ->
  setup_internal tau degree =
    Some (Ok {| kzg_public_parameter :=
      {| points_in_g1 := map (fun i => power_point (from_bytes_be tau) (N.of_nat i))
                           (seq 0 (S (N.to_nat degree)));
         point_in_g2 := p2_mul (fr_of_Z (from_bytes_be tau)) p2_generator |} |}).
Proof.
  intros Htau. rewrite setup_internal_eq.
  replace (curve_order <? from_bytes_be tau) with false by (symmetry; apply Z.ltb_ge; lia).
  replace (from_bytes_be tau <? curve_order) with true by (symmetry; apply Z.ltb_lt; lia).
  reflexivity.
Qed.

Lemma power_point_low (t : Z) (i : N) :
  (i < 2 ^ 32)%N ->
  power_point t i = p1_mul (fr_of_Z (t ^ Z.of_N i mod curve_order)) p1_generator.
Proof.
  intros Hi. unfold power_point.
  rewrite (Z.mod_small (Z.of_N i)) by lia.
  rewrite modpow_spec by lia.
  reflexivity.
Qed.

Lemma setup_points_nth (bytes_tau : Z) (degree i : N) :
  (i <= degree)%N ->
  nth_error (map (fun k => power_point bytes_tau (N.of_nat k))
               (seq 0 (S (N.to_nat degree)))) (N.to_nat i)
  = Some (power_point bytes_tau i).
Proof.
  intros Hi. rewrite nth_error_map, nth_error_seq.
  replace (N.to_nat i <? S (N.to_nat degree))%nat with true
    by (symmetry; apply Nat.ltb_lt; lia).
  simpl. rewrite N2Nat.id. reflexivity.
Qed.

(** Setup below the 32-bit index range: the points are the powers of
    [tau] times the generator, and the G2 point is [tau] times the G2
    generator. *)
Lemma setup_internal_ok (tau : list Byte.byte) (degree : N) :
  from_bytes_be tau < curve_order ->
  exists k, setup_internal tau degree = Some (Ok k) /\
    length (points_in_g1 (kzg_public_parameter k)) = S (N.to_nat degree) /\
    (forall i, (i <= degree)%N -> (i < 2 ^ 32)%N ->
       nth_error (points_in_g1 (kzg_public_parameter k)) (N.to_nat i)
       = Some (p1_mul (fr_of_Z (from_bytes_be tau ^ Z.of_N i mod curve_order))
                 p1_generator)) /\
    point_in_g2 (kzg_public_parameter k)
    = p2_mul (fr_of_Z (from_bytes_be tau)) p2_generator.
Proof.
  intros Htau. rewrite setup_internal_lt by exact Htau.
  eexists; split; [reflexivity|]; cbn [kzg_public_parameter points_in_g1 point_in_g2].
  split; [rewrite length_map, length_seq; reflexivity|].
  split.
  - intros i Hi Hi32. rewrite setup_points_nth by exact Hi.
    rewrite power_point_low by exact Hi32. reflexivity.
  - reflexivity.
Qed.

End KzgProps.

(** *** Claims on evaluation *)

(** Claim C1 (code_bug). [evalaute] squares the running power
    ([variable *= variable]) instead of multiplying it by [x]: on the
    polynomial of the repository's own [test_opening] vectors at [15],
    the code's value differs from the polynomial's value, which both
    Horner's rule and the incremental [sum += c_i * x^i] evaluation give
    as the test's expected [6099236329206434206]. *)
Theorem evalaute_test_opening_diverges :
  evalaute (from_coefficients test_opening_poly) (from_u64 15)
    <> Some (from_u64 6099236329206434206) /\
  horner test_opening_poly (from_u64 15) = from_u64 6099236329206434206 /\
  eval_incremental test_opening_poly (from_u64 15) = from_u64 6099236329206434206.
Proof.
  split; [|split].
  - intros H. apply (f_equal (option_map fr_val)) in H.
    vm_compute in H. discriminate H.
  - vm_compute. reflexivity.
  - vm_compute. reflexivity.
Qed.

(** Claim C9 (corrected). Evaluating the empty polynomial returns no
    result at all: [self.coefficients[0]] panics, and [evalaute]'s
    return type [Fr] has no error case. *)
Theorem evalaute_empty_panics (x : Fr) :
  evalaute (from_coefficients []) x = None.
Proof. reflexivity. Qed.

(** Counterexample to claim C9: at [x = 0] the empty polynomial gives a
    panic, not an error result. *)
Lemma evalaute_empty_at_zero_panics :
  evalaute (from_coefficients []) fr0 = None.
Proof. reflexivity. Qed.

(** *** Claims on setup *)

(** Claim C2 (code_bug). [setup_internal] rejects [tau] only when
    [bytes_tau > modulus]: a [tau] equal to the group order passes the
    check, so for every degree setup does not return the error, whereas
    the error's name and the rejection loop of [new_rand]
    ([while s >= modulus]) exclude it. The code then panics in
    [Scalar::from_fr_bytes(tau)], whose check requires a value below the
    order. *)
Theorem setup_tau_equal_to_order_not_rejected (C : CurveLib) (degree : N) :
  from_bytes_be order_tau = curve_order /\
  (forall e, setup_internal order_tau degree <> Some (Err e)) /\
  setup_internal order_tau degree = None.
Proof.
  assert (Ho : from_bytes_be order_tau = curve_order) by (vm_compute; reflexivity).
  assert (Hn : setup_internal order_tau degree = None).
  { rewrite setup_internal_eq, Ho, Z.ltb_irrefl. reflexivity. }
  split; [exact Ho|]. split; [|exact Hn].
  intros e H. rewrite Hn in H. discriminate H.
Qed.

(** Claim C7 (code_bug). [BigUint::from_slice(&[i as u32])] truncates the
    index: with [tau = 0] and [degree = 2^32], the point at index [2^32]
    is [1 * g1] (exponent [0]), not [(0 ^ 2^32 mod r) * g1 = 0 * g1]. *)
Theorem setup_index_2_32_wraps :
  exists k, @setup_internal DlogCurve zero_tau (2 ^ 32)%N = Some (Ok k) /\
    nth_error (points_in_g1 (kzg_public_parameter k)) (N.to_nat (2 ^ 32))
      = Some (p1_mul fr1 p1_generator) /\
    p1_mul fr1 p1_generator
      <> p1_mul (fr_of_Z (from_bytes_be zero_tau ^ Z.of_N (2 ^ 32) mod curve_order))
           p1_generator.
Proof.
  rewrite setup_internal_lt by (vm_compute; reflexivity).
  eexists; split; [reflexivity|].
  cbn [kzg_public_parameter points_in_g1]. split.
  - rewrite setup_points_nth by lia. vm_compute. reflexivity.
  - replace (from_bytes_be zero_tau) with 0 by (vm_compute; reflexivity).
    change (Z.of_N (2 ^ 32)) with 4294967296.
    rewrite Z.pow_0_l by lia.
    intros H. apply (f_equal fr_val) in H. vm_compute in H. discriminate H.
Qed.

(** *** Claims on commitment and verification *)

Section KzgClaims.
Context {C : CurveLib}.

Lemma fold_left_map_shift {A : Type} (f : A -> nat -> A) (l : list nat) (a : A) :
  fold_left f (map S l) a = fold_left (fun acc i => f acc (S i)) l a.
Proof. revert a; induction l as [|x l IH]; intros a; simpl; auto. Qed.

Lemma commit_fold_seq (cs : list Fr) (bs : list P1) (acc : P1) :
  fold_left (fun acc '(coefficient, el) => p1_add acc (p1_mul coefficient el))
    (combine cs bs) acc
  = fold_left (fun acc i => p1_add acc (p1_mul (nth i cs fr0) (nth i bs p1_default)))
      (seq 0 (Nat.min (length cs) (length bs))) acc.
Proof.
  revert bs acc; induction cs as [|c cs IH]; intros bs acc.
  - reflexivity.
  - destruct bs as [|b bs]; [reflexivity|].
    simpl combine; simpl length.
    cbn [Nat.min seq fold_left]. rewrite <- seq_shift.
    rewrite fold_left_map_shift. apply IH.
Qed.

(** Claim C5. [commit] succeeds with the sum of [coefficient_i * basis_i]
    over the indices both sequences have: coefficients beyond the basis
    are dropped without an error. *)
Theorem commit_element_sum (pp : PP) (p : Polynomial) :
  commit pp p = Ok {| element := commit_sum pp (coefficients p);
                      polynomial := p; public_parameter := pp |}.
Proof.
  unfold commit, commit_sum. f_equal. f_equal.
  apply commit_fold_seq.
Qed.

(** Claim C10. [commit] never returns an error, and the commitment to
    the empty polynomial is the default point. *)
Theorem commit_infallible :
  (forall (pp : PP) (p : Polynomial), exists c, commit pp p = Ok c) /\
  (forall pp : PP, commit pp (from_coefficients [])
     = Ok {| element := p1_default; polynomial := from_coefficients [];
             public_parameter := pp |}).
Proof.
  split.
  - intros pp p. eexists. reflexivity.
  - intros pp. reflexivity.
Qed.

(** Claim C3. [verify] is the pairing check
    [e(C - value * g1, g2) = e(proof, tau_g2 - input * g2)], computed by
    [verify_pairings] on exactly these four points. *)
Theorem verify_is_pairing_check (o : Opening) (input : Fr) (c : Commitment) :
  let lhs1 := p1_add (element c) (p1_neg (p1_mul (value o) p1_generator)) in
  let rhs2 := p2_add (point_in_g2 (public_parameter c))
                (p2_neg (p2_mul input p2_generator)) in
  verify o input c = verify_pairings lhs1 p2_generator (proof o) rhs2 /\
  (verify o input c = true <->
     pairing lhs1 p2_generator = pairing (proof o) rhs2).
Proof.
  intros lhs1 rhs2. split; [reflexivity|].
  apply verify_pairings_spec.
Qed.

End KzgClaims.

(** *** Division by [X - z] *)

Lemma read_app_len {A : Type} (l r : list A) (n : nat) :
  read (l ++ r) (length l + n) = read r n.
Proof.
  unfold read. rewrite nth_error_app2 by lia.
  f_equal. lia.
Qed.

Lemma list_set_app_len {A : Type} (l r : list A) (n : nat) (x : A) :
  list_set (l ++ r) (length l + n) x = option_map (app l) (list_set r n x).
Proof.
  induction l as [|y l IH]; simpl.
  - destruct (list_set r n x); reflexivity.
  - rewrite IH. destruct (list_set r n x); reflexivity.
Qed.

(** One pass of the inner loop for the divisor [[-z, 1]]. *)
Lemma sub_loop_linear (z : Fr) (pre : list Fr) (c v : Fr) (suf : list Fr) :
  sub_loop [fr_neg z; fr1] v (length pre) 2 (pre ++ c :: v :: suf)
  = Some (pre ++ fr_sub c (fr_mul (fr_neg z) v) :: fr_sub v (fr_mul fr1 v) :: suf).
Proof.
  cbn [sub_loop]. unfold obind.
  change (read [fr_neg z; fr1] 1) with (Some fr1).
  rewrite read_app_len. cbn [read nth_error].
  rewrite list_set_app_len. cbn [list_set option_map].
  change (read [fr_neg z; fr1] 0) with (Some (fr_neg z)).
  rewrite read_app_len. cbn [read nth_error].
  rewrite list_set_app_len. cbn [list_set option_map].
  reflexivity.
Qed.

Lemma horner_snoc2 (l : list Fr) (c v z : Fr) :
  horner (l ++ [c; v]) z = horner (l ++ [fr_add c (fr_mul z v)]) z.
Proof.
  induction l as [|a l IH]; simpl.
  - ring.
  - rewrite IH. reflexivity.
Qed.

Lemma suffix_values_snoc2 (l : list Fr) (c v z : Fr) :
  suffix_values (l ++ [c; v]) z
  = suffix_values (l ++ [fr_add c (fr_mul z v)]) z ++ [horner [v] z].
Proof.
  induction l as [|a l IH].
  - simpl. f_equal. ring.
  - cbn [suffix_values app horner].
    rewrite horner_snoc2, IH. reflexivity.
Qed.


Lemma div_loop_linear (z : Fr) (d : nat) : forall pre v suf coeffs fuel,
  length pre = S d -> (d < fuel)%nat ->
  div_loop fuel [fr_neg z; fr1] 1 (pre ++ v :: suf) coeffs (S d) (Z.of_nat d)
  = Some (coeffs ++ rev (suffix_values (tl (pre ++ [v])) z)).
Proof.
  induction d as [|d IH]; intros pre v suf coeffs fuel Hlen Hfuel;
    (destruct fuel as [|fuel]; [lia|]);
    (destruct (exists_last (l := pre)) as [pre' [c ->]];
       [intros ->; discriminate|]);
    rewrite length_app in Hlen; simpl in Hlen;
    rewrite <- app_assoc; cbn [app];
    cbn [div_loop];
    (replace (0 <=? Z.of_nat _) with true by (symmetry; apply Z.leb_le; lia));
    unfold obind;
    change (read [fr_neg z; fr1] 1) with (Some fr1).
  - destruct pre' as [|? ?]; [|simpl in Hlen; lia].
    simpl. rewrite fr_div_1.
    destruct fuel; simpl; do 3 f_equal; ring.
  - assert (E1 : read (pre' ++ c :: v :: suf) (S (S d)) = Some v).
    { replace (S (S d)) with (length pre' + 1)%nat by lia.
      rewrite read_app_len. reflexivity. }
    rewrite E1. cbv beta iota. rewrite fr_div_1, Nat2Z.id.
    assert (E2 : sub_loop [fr_neg z; fr1] v (S d) 2 (pre' ++ c :: v :: suf)
                 = Some (pre' ++ fr_sub c (fr_mul (fr_neg z) v)
                           :: fr_sub v (fr_mul fr1 v) :: suf)).
    { replace (S d) with (length pre') by lia. apply sub_loop_linear. }
    rewrite E2. cbn [usize_pred].
    replace (Z.of_nat (S d) - 1) with (Z.of_nat d) by lia.
    rewrite IH by lia.
    destruct pre' as [|a p]; [simpl in Hlen; lia|].
    rewrite <- (app_assoc (a :: p) [c] [v]). cbn [app tl].
    rewrite suffix_values_snoc2, rev_app_distr.
    replace (fr_sub c (fr_mul (fr_neg z) v)) with (fr_add c (fr_mul z v)) by ring.
    assert (Hv : horner [v] z = v) by (simpl; ring).
    rewrite Hv, <- app_assoc. reflexivity.
Qed.

Lemma compute_quotient_linear (f : list Fr) (z : Fr) : f <> [] ->
  compute_quotient (from_coefficients f) (from_coefficients [fr_neg z; from_u64 1])
  = Some (from_coefficients (suffix_values (tl f) z)).
Proof.
  intros Hf. destruct f as [|c0 t]; [congruence|].
  unfold compute_quotient. change (from_u64 1) with fr1.
  cbn [coefficients from_coefficients length usize_pred obind].
  destruct t as [|c1 t'].
  - reflexivity.
  - destruct (exists_last (l := c0 :: c1 :: t')) as [pre [v Hpv]]; [discriminate|].
    assert (Hlen : length pre = S (length t')).
    { apply (f_equal (@length Fr)) in Hpv. rewrite length_app in Hpv.
      simpl in Hpv. lia. }
    change (length (c1 :: t')) with (S (length t')).
    replace (Z.of_nat (S (length t')) - Z.of_nat 1) with (Z.of_nat (length t')) by lia.
    rewrite Hpv. rewrite div_loop_linear by (rewrite ?length_app; simpl; lia).
    cbn [obind app]. rewrite rev_involutive, <- Hpv. reflexivity.
Qed.

Lemma poly_add_nil_r (p : list Fr) : poly_add p [] = p.
Proof. destruct p; reflexivity. Qed.

Lemma poly_add_comm (p q : list Fr) : poly_add p q = poly_add q p.
Proof.
  revert q; induction p as [|a p IH]; intros [|b q]; simpl; try reflexivity.
  rewrite IH. f_equal. ring.
Qed.

Lemma reconstruct_suffix_values (t : list Fr) (c0 z : Fr) :
  reconstruct (suffix_values t z) z (fr_add c0 (fr_mul z (horner t z))) = c0 :: t.
Proof.
  unfold reconstruct. revert c0; induction t as [|c1 t IH]; intros c0.
  - simpl. f_equal. ring.
  - cbn [suffix_values poly_mul map].
    set (h := horner (c1 :: t) z).
    set (M := poly_mul (suffix_values t z) [fr_neg z; fr1]).
    cbn [poly_add]. rewrite poly_add_nil_r.
    f_equal.
    + unfold h. simpl. ring.
    + replace (fr_mul h fr1) with (fr_add c1 (fr_mul z (horner t z)))
        by (unfold h; simpl; ring).
      specialize (IH c1). rewrite poly_add_comm in IH. exact IH.
Qed.

(** *** Claims on division and opening *)

(** Claim C6. For a non-empty [f], [compute_quotient f [-z, 1]] returns
    a quotient [q] with [q * (X - z) + f(z) = f] coefficient-wise. *)
Theorem compute_quotient_round_trip (f : list Fr) (z : Fr) :
  f <> [] ->
  exists q, compute_quotient (from_coefficients f)
              (from_coefficients [fr_neg z; from_u64 1]) = Some q /\
    reconstruct (coefficients q) z (horner f z) = f.
Proof.
  intros Hf. rewrite compute_quotient_linear by exact Hf.
  eexists; split; [reflexivity|].
  destruct f as [|c0 t]; [congruence|].
  apply reconstruct_suffix_values.
Qed.

Lemma compute_quotient_round_trip_witness :
  fs [1; 3; 2] <> [] /\
  exists q, compute_quotient (from_coefficients (fs [1; 3; 2]))
              (from_coefficients [fr_neg (from_u64 2); from_u64 1]) = Some q /\
    reconstruct (coefficients q) (from_u64 2) (horner (fs [1; 3; 2]) (from_u64 2))
    = fs [1; 3; 2].
Proof.
  split; [simpl; discriminate|].
  apply compute_quotient_round_trip. simpl; discriminate.
Defined.

Lemma div_loop_negative (fuel : nat) (divisor : list Fr) (divisor_pos : nat)
    (dividend cs : list Fr) (dividend_pos : nat) (difference : Z) :
  difference < 0 ->
  div_loop fuel divisor divisor_pos dividend cs dividend_pos difference = Some cs.
Proof.
  intros Hd. destruct fuel; cbn [div_loop];
    replace (0 <=? difference) with false by (symmetry; apply Z.leb_gt; lia);
    reflexivity.
Qed.

(** Claim C8. When the dividend (non-empty) is shorter than the divisor
    (non-empty), the signed degree difference is negative, the loop body
    never runs and the quotient is the empty polynomial. *)
Theorem compute_quotient_low_degree (dividend divisor : Polynomial) :
  coefficients dividend <> [] -> coefficients divisor <> [] ->
  (length (coefficients dividend) < length (coefficients divisor))%nat ->
  compute_quotient dividend divisor = Some (from_coefficients []).
Proof.
  intros Hdd Hdv Hlt. unfold compute_quotient.
  destruct (coefficients dividend) as [|a dd]; [congruence|].
  destruct (coefficients divisor) as [|b dv]; [congruence|].
  cbn [length usize_pred obind] in *.
  rewrite div_loop_negative by lia. reflexivity.
Qed.

Lemma compute_quotient_low_degree_witness :
  fs [5] <> [] /\ fs [1; 2; 3] <> [] /\ Nat.lt (length (fs [5])) (length (fs [1; 2; 3])) /\
  compute_quotient (from_coefficients (fs [5])) (from_coefficients (fs [1; 2; 3]))
  = Some (from_coefficients []).
Proof.
  split; [simpl; discriminate|]. split; [simpl; discriminate|].
  split; [simpl; lia|].
  apply compute_quotient_low_degree; simpl; [discriminate | discriminate | lia].
Defined.

Section OpenClaims.
Context {C : CurveLib}.

(** Claim C4. For a commitment to a non-empty polynomial [f], [open_at]
    returns [evalaute f z] as the value and, as the proof, the element of
    the commitment (under the same public parameter) to the quotient of
    [f] itself by [[-z, 1]]. *)
Theorem open_at_spec (c : Commitment) (z : Fr) :
  coefficients (polynomial c) <> [] ->
  exists v q cm,
    evalaute (polynomial c) z = Some v /\
    compute_quotient (polynomial c) (from_coefficients [fr_neg z; from_u64 1]) = Some q /\
    commit (public_parameter c) q = Ok cm /\
    open_at c z = Some (Ok {| value := v; proof := element cm |}).
Proof.
  intros Hne. destruct c as [el [f] pp]; cbn [polynomial public_parameter coefficients] in *.
  destruct f as [|c0 t]; [congruence|].
  exists (evalaute_loop t c0 z),
         (from_coefficients (suffix_values (tl (c0 :: t)) z)),
         {| element := commit_sum pp (suffix_values (tl (c0 :: t)) z);
            polynomial := from_coefficients (suffix_values (tl (c0 :: t)) z);
            public_parameter := pp |}.
  split; [reflexivity|].
  split; [apply compute_quotient_linear; discriminate|].
  split; [apply commit_element_sum|].
  unfold open_at. cbn [polynomial public_parameter].
  change (evalaute {| coefficients := c0 :: t |} z) with (Some (evalaute_loop t c0 z)).
  cbn [obind]. rewrite compute_quotient_linear by discriminate.
  cbn [obind]. rewrite commit_element_sum. reflexivity.
Qed.

End OpenClaims.

Lemma open_at_spec_witness :
  coefficients (polynomial example_commitment) <> [] /\
  exists v q cm,
    evalaute (polynomial example_commitment) (from_u64 15) = Some v /\
    compute_quotient (polynomial example_commitment)
      (from_coefficients [fr_neg (from_u64 15); from_u64 1]) = Some q /\
    commit (public_parameter example_commitment) q = Ok cm /\
    open_at example_commitment (from_u64 15)
      = Some (Ok {| value := v; proof := element cm |}).
Proof.
  split; [simpl; discriminate|].
  apply open_at_spec. simpl; discriminate.
Defined.

(** The repository's test vector with [tau = 0], [f = X], point [15]:
    the value is [15], the proof is the generator and it verifies. *)
Example open_at_test_vector :
  option_map (fun res =>
      match res with
      | Ok o => (fr_val (value o), fr_val (proof o),
                 verify o (from_u64 15) example_commitment)
      | Err _ => (0, 0, false)
      end)
    (open_at example_commitment (from_u64 15))
  = Some (15, 1, true).
Proof. vm_compute. reflexivity. Qed.

(** ** Further properties *)

(** *** Polynomial division *)

Lemma nth_poly_add (p q : list Fr) (j : nat) :
  nth j (poly_add p q) fr0 = fr_add (nth j p fr0) (nth j q fr0).
Proof.
  revert q j; induction p as [|a p IH]; intros [|b q] [|j]; simpl;
    try ring; try apply IH.
Qed.

Lemma nth_map_mul (a : Fr) (l : list Fr) (j : nat) :
  nth j (map (fr_mul a) l) fr0 = fr_mul a (nth j l fr0).
Proof.
  revert j; induction l as [|x l IH]; intros [|j]; simpl; try ring; apply IH.
Qed.

Lemma poly_mul_zero_cons (p d : list Fr) :
  peq (poly_mul (fr0 :: p) d) (fr0 :: poly_mul p d).
Proof.
  intros j. cbn [poly_mul]. rewrite nth_poly_add, nth_map_mul.
  destruct j; simpl; ring.
Qed.

Lemma poly_mul_shift (k : nat) (t : Fr) (R d : list Fr) :
  peq (poly_mul (repeat fr0 k ++ t :: R) d)
      (poly_add (repeat fr0 k ++ map (fr_mul t) d) (poly_mul (repeat fr0 (S k) ++ R) d)).
Proof.
  induction k as [|k IH]; intros j.
  - cbn [repeat app].
    change (poly_mul (t :: R) d) with (poly_add (map (fr_mul t) d) (fr0 :: poly_mul R d)).
    rewrite !nth_poly_add, (poly_mul_zero_cons R d j). reflexivity.
  - change (repeat fr0 (S k) ++ t :: R) with (fr0 :: (repeat fr0 k ++ t :: R)).
    change (repeat fr0 (S (S k)) ++ R) with (fr0 :: (repeat fr0 (S k) ++ R)).
    rewrite poly_mul_zero_cons, nth_poly_add, poly_mul_zero_cons.
    destruct j as [|j]; cbn [nth repeat app].
    + ring.
    + rewrite IH, nth_poly_add. reflexivity.
Qed.

Lemma poly_mul_repeat_zero (k : nat) (d : list Fr) : peq (poly_mul (repeat fr0 k) d) [].
Proof.
  induction k as [|k IH]; intros j; [reflexivity|].
  cbn [repeat]. rewrite poly_mul_zero_cons.
  destruct j; [reflexivity|]. simpl. rewrite (IH j). destruct j; reflexivity.
Qed.

Lemma nth_shifted (k : nat) (t : Fr) (d : list Fr) (j : nat) :
  nth j (repeat fr0 k ++ map (fr_mul t) d) fr0
  = if (j <? k)%nat then fr0 else fr_mul t (nth (j - k) d fr0).
Proof.
  destruct (Nat.ltb_spec j k) as [H|H].
  - rewrite app_nth1 by (rewrite repeat_length; lia). apply nth_repeat.
  - rewrite app_nth2 by (rewrite repeat_length; lia).
    rewrite repeat_length. apply nth_map_mul.
Qed.

Lemma list_set_spec {A : Type} (l : list A) (n : nat) (x : A) :
  (n < length l)%nat ->
  exists l', list_set l n x = Some l' /\ length l' = length l /\
    forall j dflt, nth j l' dflt = if (j =? n)%nat then x else nth j l dflt.
Proof.
  revert n; induction l as [|y l IH]; intros n Hn; [simpl in Hn; lia|].
  destruct n as [|n].
  - exists (x :: l). split; [reflexivity|]. split; [reflexivity|].
    intros [|j] dflt; reflexivity.
  - destruct (IH n) as [l' [E [L N]]]; [simpl in Hn; lia|].
    exists (y :: l'). cbn [list_set]. rewrite E. split; [reflexivity|].
    split; [simpl; congruence|].
    intros [|j] dflt; [reflexivity|]. apply N.
Qed.

Lemma read_nth {A : Type} (l : list A) (n : nat) (dflt : A) :
  (n < length l)%nat -> read l n = Some (nth n l dflt).
Proof. intros H. apply nth_error_nth'. exact H. Qed.

Lemma sub_loop_spec (d : list Fr) (t : Fr) (k i : nat) (A : list Fr) :
  (i <= length d)%nat -> (k + i <= length A)%nat ->
  exists A', sub_loop d t k i A = Some A' /\ length A' = length A /\
    forall j, nth j A' fr0 =
      if (k <=? j)%nat && (j <? k + i)%nat
      then fr_sub (nth j A fr0) (fr_mul (nth (j - k) d fr0) t)
      else nth j A fr0.
Proof.
  revert A; induction i as [|i IH]; intros A Hi Hk.
  - exists A. split; [reflexivity|]. split; [reflexivity|].
    intros j. destruct (Nat.leb_spec k j), (Nat.ltb_spec j (k + 0)); cbn [andb]; try reflexivity; lia.
  - cbn [sub_loop]. rewrite (read_nth d i fr0) by lia.
    rewrite (read_nth A (k + i) fr0) by lia. cbn [obind].
    destruct (list_set_spec A (k + i)
                (fr_sub (nth (k + i) A fr0) (fr_mul (nth i d fr0) t))) as [A1 [E1 [L1 N1]]];
      [lia|].
    rewrite E1. cbn [obind].
    destruct (IH A1) as [A' [E' [L' N']]]; [lia | lia |].
    exists A'. split; [exact E'|]. split; [congruence|].
    intros j. rewrite N', !N1.
    destruct (Nat.eqb_spec j (k + i)) as [->|Hne].
    + replace (k + i - k)%nat with i by lia.
      destruct (Nat.leb_spec k (k + i)), (Nat.ltb_spec (k + i) (k + i)),
        (Nat.ltb_spec (k + i) (k + S i)); cbn [andb]; try reflexivity; lia.
    + destruct (Nat.leb_spec k j), (Nat.ltb_spec j (k + i)),
        (Nat.ltb_spec j (k + S i)); cbn [andb]; try reflexivity; lia.
Qed.

Section Division.
Variable d : list Fr.
Variable m : nat.
Hypothesis Hd : length d = S m.
Hypothesis Hm : (1 <= m)%nat.
Hypothesis Hb : fr_mul (nth m d fr0) (fr_inv (nth m d fr0)) = fr1.
Variable n : nat.

Lemma fr_sub_cancel (a b ib : Fr) :
  fr_mul b ib = fr1 -> fr_sub a (fr_mul b (fr_mul a ib)) = fr0.
Proof.
  intros H. transitivity (fr_sub a (fr_mul a (fr_mul b ib))); [ring|].
  rewrite H. ring.
Qed.

(** One pass of the loop body at [difference = k]: the new dividend plus
    [t * X^k * d] is the old one, and position [k + m] becomes zero. *)
Lemma div_step (k : nat) (A : list Fr) :
  length A = n -> (k + m < n)%nat ->
  let t := fr_div (nth (k + m) A fr0) (nth m d fr0) in
  exists A1, sub_loop d t k (S m) A = Some A1 /\ length A1 = n /\
    nth (k + m) A1 fr0 = fr0 /\
    (forall j, (k + m < j)%nat -> nth j A1 fr0 = nth j A fr0) /\
    forall R, peq (poly_add A (poly_mul (repeat fr0 (S k) ++ R) d))
                  (poly_add A1 (poly_mul (repeat fr0 k ++ t :: R) d)).
Proof.
  intros HA Hk t.
  assert (Ht : fr_sub (nth (k + m) A fr0) (fr_mul (nth m d fr0) t) = fr0)
    by (apply fr_sub_cancel; exact Hb).
  clearbody t.
  destruct (sub_loop_spec d t k (S m) A) as [A1 [E [L N]]]; [lia | lia |].
  exists A1. split; [exact E|]. split; [lia|]. split; [|split].
  - rewrite N. replace (k + m - k)%nat with m by lia.
    destruct (Nat.leb_spec k (k + m)), (Nat.ltb_spec (k + m) (k + S m)); [|lia..].
    exact Ht.
  - intros j Hj. rewrite N.
    destruct (Nat.leb_spec k j), (Nat.ltb_spec j (k + S m)); cbn [andb]; try reflexivity; lia.
  - intros R j. rewrite !nth_poly_add, poly_mul_shift, nth_poly_add, nth_shifted, N.
    destruct (Nat.leb_spec k j), (Nat.ltb_spec j (k + S m)), (Nat.ltb_spec j k);
      cbn [andb]; try lia; try ring.
    rewrite (nth_overflow d) by lia. ring.
Qed.

Lemma div_loop_inv (k : nat) : forall A cs R fuel,
  length A = n -> (k + m < n)%nat ->
  (forall j, (k + m < j)%nat -> nth j A fr0 = fr0) -> (k < fuel)%nat ->
  exists cs' Af,
    div_loop fuel d m A cs (k + m) (Z.of_nat k) = Some (cs ++ cs') /\
    length cs' = S k /\ length Af = n /\
    (forall j, (m <= j)%nat -> nth j Af fr0 = fr0) /\
    peq (poly_add A (poly_mul (repeat fr0 (S k) ++ R) d))
        (poly_add Af (poly_mul (rev cs' ++ R) d)).
Proof.
  induction k as [|k IH]; intros A cs R fuel HA Hk Hz Hf;
    (destruct fuel as [|fuel]; [lia|]);
    destruct (div_step _ A HA Hk) as [A1 [E [L [Z0 [Zhi P]]]]];
    cbn [div_loop];
    (replace (0 <=? Z.of_nat _) with true by (symmetry; apply Z.leb_le; lia));
    rewrite (read_nth A _ fr0) by lia; rewrite (read_nth d m fr0) by lia;
    cbn [obind]; rewrite Nat2Z.id, E; cbn [obind].
  - assert (Hum : usize_pred (0 + m) = Some (m - 1)%nat)
      by (destruct m; [lia | cbn; f_equal; lia]).
    rewrite Hum. cbn [obind].
    rewrite div_loop_negative by lia.
    eexists [_], A1. split; [reflexivity|]. split; [reflexivity|]. split; [exact L|].
    split.
    + intros j Hj. destruct (Nat.eq_dec j m) as [->|Hne]; [exact Z0|].
      rewrite Zhi by lia. apply Hz. lia.
    + exact (P R).
  - replace (S k + m)%nat with (S (k + m)) by lia. cbn [usize_pred obind].
    replace (Z.of_nat (S k) - 1) with (Z.of_nat k) by lia.
    destruct (IH A1 (cs ++ [fr_div (nth (S (k + m)) A fr0) (nth m d fr0)])
                (fr_div (nth (S (k + m)) A fr0) (nth m d fr0) :: R) fuel)
      as [cs' [Af [E' [Lc [La [Zm P']]]]]]; [lia | lia | | lia |].
    + intros j Hj. destruct (Nat.eq_dec j (S k + m)) as [->|Hne]; [exact Z0|].
      rewrite Zhi by lia. apply Hz. lia.
    + rewrite E', <- app_assoc.
      eexists (_ :: cs'), Af. split; [reflexivity|]. split; [simpl; lia|].
      split; [exact La|]. split; [exact Zm|].
      intros j. rewrite P, P'. cbn [rev]. rewrite <- app_assoc.
      replace (S (k + m)) with (S k + m)%nat by lia. reflexivity.
Qed.

End Division.

Lemma nth_nil_fr (j : nat) : nth j [] fr0 = fr0.
Proof. destruct j; reflexivity. Qed.

Lemma length_poly_add (p q : list Fr) :
  length (poly_add p q) = Nat.max (length p) (length q).
Proof.
  revert q; induction p as [|a p IH]; intros [|b q]; simpl; try reflexivity.
  rewrite IH. reflexivity.
Qed.

Lemma length_poly_mul (p d : list Fr) :
  p <> [] -> d <> [] -> length (poly_mul p d) = (length p + length d - 1)%nat.
Proof.
  intros Hp Hd. induction p as [|a p IH]; [congruence|].
  cbn [poly_mul]. rewrite length_poly_add, length_map.
  destruct p as [|a' p].
  - simpl. destruct d; [congruence|]. simpl. lia.
  - cbn [length] in *. rewrite IH by discriminate. destruct d; [congruence|]. simpl. lia.
Qed.

Lemma last_nth (l : list Fr) (dflt : Fr) : last l dflt = nth (length l - 1) l dflt.
Proof.
  induction l as [|a l IH]; [reflexivity|].
  destruct l as [|b l]; [reflexivity|].
  change (last (a :: b :: l) dflt) with (last (b :: l) dflt).
  rewrite IH. simpl. rewrite Nat.sub_0_r. reflexivity.
Qed.

(** [compute_quotient] is polynomial long division for a divisor with
    at least two coefficients whose leading coefficient [b] is invertible
    ([b * b^(r-2) = 1], the code's division): on a non-empty dividend [f]
    it returns a quotient [q] of length [len f + 1 - len d], and
    [f = q * d + rem] coefficient-wise for a remainder shorter than [d]
    (which the code computes in place and discards). *)
Theorem compute_quotient_divides (f d : list Fr) :
  f <> [] -> (2 <= length d)%nat ->
  fr_mul (last d fr0) (fr_inv (last d fr0)) = fr1 ->
  exists q rem,
    compute_quotient (from_coefficients f) (from_coefficients d)
      = Some (from_coefficients q) /\
    length q = (length f + 1 - length d)%nat /\
    (length rem < length d)%nat /\
    f = poly_add (poly_mul q d) rem.
Proof.
  intros Hf Hd2 Hb.
  destruct (length d) as [|m] eqn:Ld; [lia|].
  rewrite last_nth, Ld in Hb. replace (S m - 1)%nat with m in Hb by lia.
  destruct f as [|c f']; [congruence|].
  unfold compute_quotient. cbn [coefficients from_coefficients].
  rewrite Ld. cbn [length usize_pred obind].
  destruct (Nat.leb_spec m (length f')) as [Hle|Hlt].
  - set (k := (length f' - m)%nat).
    replace (Z.of_nat (length f') - Z.of_nat m) with (Z.of_nat k) by lia.
    destruct (div_loop_inv d m Ld ltac:(lia) Hb (S (length f')) k (c :: f') [] []
                (S (S (length f'))))
      as [cs' [Af [E [Lc [La [Zm P]]]]]];
      [reflexivity | simpl; lia | intros j Hj; apply nth_overflow; simpl; lia | lia |].
    replace (k + m)%nat with (length f') in E by lia.
    rewrite E. cbn [app obind].
    exists (rev cs'), (firstn m Af). split; [reflexivity|].
    split; [rewrite length_rev; simpl; lia|].
    split; [rewrite length_firstn; lia|].
    assert (Hq : rev cs' <> []).
    { intros H. apply (f_equal (@length Fr)) in H. rewrite length_rev in H. simpl in H. lia. }
    apply nth_ext with (d := fr0) (d' := fr0).
    + rewrite length_poly_add, length_poly_mul, length_rev, length_firstn
        by (try exact Hq; intros H; rewrite H in Ld; discriminate).
      simpl. lia.
    + intros j _. rewrite nth_poly_add.
      specialize (P j). rewrite !nth_poly_add, app_nil_r, app_nil_r,
        (poly_mul_repeat_zero (S k) d j) in P.
      rewrite nth_firstn. rewrite nth_nil_fr in P.
      destruct (Nat.ltb_spec j m) as [Hj|Hj].
      * transitivity (fr_add (nth j (c :: f') fr0) fr0); [ring|].
        rewrite P. ring.
      * rewrite (Zm j Hj) in P.
        transitivity (fr_add (nth j (c :: f') fr0) fr0); [ring|].
        rewrite P. ring.
  - rewrite div_loop_negative by lia. cbn [rev obind].
    exists [], (c :: f'). split; [reflexivity|].
    split; [simpl; lia|]. split; [simpl; lia|]. reflexivity.
Qed.

(** *** Evaluation, as the code computes it *)

Lemma fr_pow_sq (x : Fr) (n : nat) : fr_pow (fr_mul x x) n = fr_pow x (n + n).
Proof.
  induction n as [|n IH]; [reflexivity|].
  replace (S n + S n)%nat with (S (S (n + n))) by lia.
  simpl fr_pow. rewrite IH. ring.
Qed.

Lemma evalaute_loop_sum (cs : list Fr) (sum v : Fr) :
  evalaute_loop cs sum v
  = fr_add sum (fr_sum (map (fun i => fr_mul (nth i cs fr0) (fr_pow v (2 ^ i)))
                          (seq 0 (length cs)))).
Proof.
  revert sum v; induction cs as [|c cs IH]; intros sum v.
  - simpl. ring.
  - cbn [evalaute_loop length]. rewrite IH.
    cbn [seq map fr_sum]. rewrite <- seq_shift, map_map.
    cbn [nth Nat.pow].
    rewrite (map_ext (fun i => fr_mul (nth i cs fr0) (fr_pow (fr_mul v v) (2 ^ i)))
               (fun x => fr_mul (nth x cs fr0) (fr_pow v (2 * 2 ^ x)))).
    + cbn [fr_pow]. ring.
    + intros i. rewrite fr_pow_sq. f_equal. f_equal. lia.
Qed.

(** [evalaute] squares the running power: on [c0 :: cs] it returns
    [c0 + Σ cs[i] * x^(2^i)], so coefficient [i >= 1] of the polynomial
    is multiplied by [x^(2^(i-1))] rather than [x^i]. *)
Theorem evalaute_squares_power (c0 : Fr) (cs : list Fr) (x : Fr) :
  evalaute (from_coefficients (c0 :: cs)) x
  = Some (fr_add c0 (fr_sum (map (fun i => fr_mul (nth i cs fr0) (fr_pow x (2 ^ i)))
                                (seq 0 (length cs))))).
Proof. unfold evalaute. cbn [coefficients from_coefficients]. rewrite evalaute_loop_sum. reflexivity. Qed.

(** On a non-empty polynomial with at most three coefficients
    (degree at most 2), where [2^(i-1) = i], [evalaute] is the value of
    the polynomial; the repository's [evaluate_test] ([1 + 3x + 2x^2] at
    [2]) lies in this range. *)
Theorem evalaute_low_degree (cs : list Fr) (x : Fr) :
  cs <> [] -> (length cs <= 3)%nat ->
  evalaute (from_coefficients cs) x = Some (horner cs x).
Proof.
  intros Hne Hl.
  destruct cs as [|c0 [|c1 [|c2 [|c3 cs]]]]; [congruence | | | | simpl in Hl; lia];
    unfold evalaute; cbn [coefficients from_coefficients evalaute_loop horner];
    f_equal; ring.
Qed.

Lemma evalaute_low_degree_witness :
  fs [1; 3; 2] <> [] /\ Nat.le (length (fs [1; 3; 2])) 3 /\
  evalaute (from_coefficients (fs [1; 3; 2])) (from_u64 2)
  = Some (horner (fs [1; 3; 2]) (from_u64 2)).
Proof.
  split; [discriminate|]. split; [simpl; lia|].
  apply evalaute_low_degree; [discriminate | simpl; lia].
Defined.

Lemma div_loop_const (b : Fr) (k : nat) : forall A cs fuel,
  (k < length A)%nat -> (k < fuel)%nat ->
  div_loop fuel [b] 0 A cs k (Z.of_nat k) = None.
Proof.
  induction k as [|k IH]; intros A cs fuel HA Hf;
    (destruct fuel as [|fuel]; [lia|]); cbn [div_loop];
    (replace (0 <=? Z.of_nat _) with true by (symmetry; apply Z.leb_le; lia)).
  - rewrite (read_nth A 0 fr0) by lia. cbn [read nth_error obind].
    change (Z.to_nat (Z.of_nat 0)) with 0%nat.
    destruct (sub_loop_spec [b] (fr_div (nth 0 A fr0) b) 0 1 A) as [A1 [E [L _]]];
      [simpl; lia | simpl; lia |].
    rewrite E. reflexivity.
  - rewrite (read_nth A (S k) fr0) by lia. cbn [read nth_error obind].
    rewrite Nat2Z.id.
    destruct (sub_loop_spec [b] (fr_div (nth (S k) A fr0) b) (S k) 1 A) as [A1 [E [L _]]];
      [simpl; lia | lia |].
    rewrite E. cbn [obind usize_pred].
    replace (Z.of_nat (S k) - 1) with (Z.of_nat k) by lia.
    apply IH; lia.
Qed.

(** [compute_quotient] panics when the dividend is empty
    ([dividend.len() - 1] underflows), when the divisor is empty
    ([divisor.coefficients.len() - 1]), and when the divisor has a single
    coefficient: then the last pass of the loop has [dividend_pos = 0]
    and [dividend_pos -= 1] underflows (overflow checks on). *)
Theorem compute_quotient_panics (f d : list Fr) :
  f = [] \/ (length d <= 1)%nat ->
  compute_quotient (from_coefficients f) (from_coefficients d) = None.
Proof.
  intros H. unfold compute_quotient. cbn [coefficients from_coefficients].
  destruct f as [|c f']; [reflexivity|].
  destruct H as [H|H]; [discriminate|].
  destruct d as [|b [|b' d']]; [reflexivity | | simpl in H; lia].
  cbn [length usize_pred obind].
  replace (Z.of_nat (length f') - Z.of_nat 0) with (Z.of_nat (length f')) by lia.
  rewrite div_loop_const by (simpl; lia). reflexivity.
Qed.

Lemma compute_quotient_panics_witness :
  (fs [1; 2] = [] \/ Nat.le (length (fs [3])) 1) /\
  compute_quotient (from_coefficients (fs [1; 2])) (from_coefficients (fs [3])) = None.
Proof.
  split; [right; simpl; lia|].
  apply compute_quotient_panics. right; simpl; lia.
Defined.

Lemma compute_quotient_divides_witness :
  fs [1; 2; 3; 4; 5] <> [] /\ Nat.le 2 (length (fs [1; 2; 3])) /\
  fr_mul (last (fs [1; 2; 3]) fr0) (fr_inv (last (fs [1; 2; 3]) fr0)) = fr1 /\
  exists q rem,
    compute_quotient (from_coefficients (fs [1; 2; 3; 4; 5])) (from_coefficients (fs [1; 2; 3]))
      = Some (from_coefficients q) /\
    length q = Nat.sub (length (fs [1; 2; 3; 4; 5]) + 1) (length (fs [1; 2; 3])) /\
    Nat.lt (length rem) (length (fs [1; 2; 3])) /\
    fs [1; 2; 3; 4; 5] = poly_add (poly_mul q (fs [1; 2; 3])) rem.
Proof.
  split; [discriminate|]. split; [simpl; lia|].
  split; [vm_compute; reflexivity|].
  apply compute_quotient_divides; [discriminate | simpl; lia | vm_compute; reflexivity].
Defined.

(** *** Setup, opening and the random setup *)

Section MoreKzg.
Context {C : CurveLib}.

(** [open_at] panics exactly when the committed polynomial is empty,
    and never returns an error otherwise. *)
Theorem open_at_outcome (c : Commitment) (z : Fr) :
  (open_at c z = None <-> coefficients (polynomial c) = []) /\
  (forall res, open_at c z = Some res -> exists o, res = Ok o).
Proof.
  destruct c as [el [f] pp]. unfold open_at. cbn [polynomial public_parameter coefficients].
  destruct f as [|c0 t].
  - split; [split; reflexivity|]. intros res H. discriminate H.
  - change (evalaute {| coefficients := c0 :: t |} z) with (Some (evalaute_loop t c0 z)).
    change {| coefficients := c0 :: t |} with (from_coefficients (c0 :: t)).
    cbn [obind]. rewrite compute_quotient_linear by discriminate. cbn [obind].
    unfold commit.
    split; [split; discriminate|].
    intros res H. injection H as <-. eexists. reflexivity.
Qed.

(** When [tau] is below the group order, [setup_internal] returns
    [degree + 1] points, the [i]-th being
    [(tau ^ (i mod 2^32) mod r) * g1] for every [i <= degree]: the
    exponent is the index truncated to 32 bits. *)
Theorem setup_internal_points (tau : list Byte.byte) (degree : N) :
  from_bytes_be tau < curve_order ->
  exists k, setup_internal tau degree = Some (Ok k) /\
    length (points_in_g1 (kzg_public_parameter k)) = S (N.to_nat degree) /\
    forall i, (i <= degree)%N ->
      nth_error (points_in_g1 (kzg_public_parameter k)) (N.to_nat i)
      = Some (p1_mul (fr_of_Z (from_bytes_be tau ^ (Z.of_N i mod 2 ^ 32) mod curve_order))
                p1_generator).
Proof.
  intros Htau. rewrite setup_internal_lt by exact Htau.
  eexists; split; [reflexivity|]; cbn [kzg_public_parameter points_in_g1].
  split; [rewrite length_map, length_seq; reflexivity|].
  intros i Hi. rewrite setup_points_nth by exact Hi.
  unfold power_point.
  rewrite modpow_spec by (apply Z.mod_pos_bound; lia).
  reflexivity.
Qed.

(** The three outcomes of [setup_internal]: the error exactly when
    [tau] exceeds the group order, a panic exactly when [tau] equals it
    (in [Scalar::from_fr_bytes(tau)]; the loop itself never panics), and
    a public parameter exactly when [tau] is below it. *)
Theorem setup_internal_outcome (tau : list Byte.byte) (degree : N) :
  ((exists e, setup_internal tau degree = Some (Err e)) <->
     curve_order < from_bytes_be tau) /\
  (setup_internal tau degree = None <-> from_bytes_be tau = curve_order) /\
  ((exists k, setup_internal tau degree = Some (Ok k)) <->
     from_bytes_be tau < curve_order).
Proof.
  rewrite setup_internal_eq.
  destruct (Z.lt_trichotomy (from_bytes_be tau) curve_order) as [H|[H|H]].
  - replace (curve_order <? from_bytes_be tau) with false by (symmetry; apply Z.ltb_ge; lia).
    replace (from_bytes_be tau <? curve_order) with true by (symmetry; apply Z.ltb_lt; lia).
    split; [split; [intros [e He]; discriminate He | lia]|].
    split; [split; [discriminate | lia]|].
    split; [intros _; exact H | intros _; eexists; reflexivity].
  - rewrite H, Z.ltb_irrefl.
    split; [split; [intros [e He]; discriminate He | lia]|].
    split; [split; reflexivity|].
    split; [intros [k Hk]; discriminate Hk | lia].
  - replace (curve_order <? from_bytes_be tau) with true by (symmetry; apply Z.ltb_lt; lia).
    split; [split; [intros _; exact H | intros _; eexists; reflexivity]|].
    split; [split; [discriminate | lia]|].
    split; [intros [k Hk]; discriminate Hk | lia].
Qed.

(** [new_rand] ends exactly when some draw is below the group order,
    and then returns [Ok] with the setup for a secret strictly below the
    order, taken from the draws: it never returns the error. *)
Theorem new_rand_ok (draws : list (list Byte.byte)) (degree : N) :
  (new_rand draws degree <> None <->
     Exists (fun s => from_bytes_be s < curve_order) draws) /\
  (forall res, new_rand draws degree = Some res ->
     exists secret k, In secret draws /\ from_bytes_be secret < curve_order /\
       setup_internal secret degree = Some (Ok k) /\ res = Ok k).
Proof.
  unfold new_rand. induction draws as [|s rest [IH1 IH2]].
  - split; [split; [intros H; contradiction H; reflexivity | intros H; inversion H]|].
    intros res H; discriminate H.
  - cbn [rand_secret]. destruct (curve_order <=? from_bytes_be s) eqn:E.
    + apply Z.leb_le in E. split.
      * rewrite IH1. split; [intros H; apply Exists_cons_tl; exact H|].
        intros H. inversion H; subst; [lia | assumption].
      * intros res H. destruct (IH2 res H) as [secret [k [Hin Hk]]].
        exists secret, k. split; [right; exact Hin | exact Hk].
    + apply Z.leb_gt in E. cbn [obind].
      destruct (setup_internal_ok s degree E) as [k [Hk _]]. rewrite Hk.
      split.
      * split; [intros _; apply Exists_cons_hd; exact E | discriminate].
      * intros res H. injection H as <-.
        exists s, k. split; [left; reflexivity|]. split; [exact E|].
        split; [exact Hk | reflexivity].
Qed.
End MoreKzg.

(** *** Completeness *)

Lemma setup_internal_points_witness :
  from_bytes_be zero_tau < curve_order /\
  exists k, @setup_internal DlogCurve zero_tau 2 = Some (Ok k) /\
    length (points_in_g1 (kzg_public_parameter k)) = S (N.to_nat 2) /\
    forall i, (i <= 2)%N ->
      nth_error (points_in_g1 (kzg_public_parameter k)) (N.to_nat i)
      = Some (p1_mul (fr_of_Z (from_bytes_be zero_tau ^ (Z.of_N i mod 2 ^ 32) mod curve_order))
                p1_generator).
Proof.
  split; [vm_compute; reflexivity|].
  apply setup_internal_points. vm_compute. reflexivity.
Defined.

Lemma horner_poly_add (p q : list Fr) (x : Fr) :
  horner (poly_add p q) x = fr_add (horner p x) (horner q x).
Proof.
  revert q; induction p as [|a p IH]; intros [|b q]; cbn [poly_add horner]; try ring.
  rewrite IH. ring.
Qed.

Lemma horner_map_mul (a : Fr) (q : list Fr) (x : Fr) :
  horner (map (fr_mul a) q) x = fr_mul a (horner q x).
Proof. induction q as [|b q IH]; cbn [map horner]; [ring | rewrite IH; ring]. Qed.

Lemma horner_poly_mul (p q : list Fr) (x : Fr) :
  horner (poly_mul p q) x = fr_mul (horner p x) (horner q x).
Proof.
  induction p as [|a p IH]; cbn [poly_mul horner]; [ring|].
  rewrite horner_poly_add, horner_map_mul. cbn [horner]. rewrite IH. ring.
Qed.

Lemma fr_of_Z_pow (t : Z) (i : nat) :
  fr_of_Z (t ^ Z.of_nat i mod curve_order) = fr_pow (fr_of_Z t) i.
Proof.
  apply fr_eq. rewrite fr_of_Z_val. unfold curve_order. rewrite Z.mod_mod by (pose proof r_pos; lia).
  induction i as [|i IH].
  - reflexivity.
  - cbn [fr_pow]. unfold fr_mul. rewrite fr_of_Z_val, <- IH, fr_of_Z_val.
    rewrite Nat2Z.inj_succ, Z.pow_succ_r by lia.
    rewrite Zmult_mod_idemp_l, Zmult_mod_idemp_r. reflexivity.
Qed.

Lemma commit_fold_powers (tau : Fr) (cs : list Fr) : forall s n acc,
  (length cs <= n)%nat ->
  fold_left (fun acc '(coefficient, el) => fr_add acc (fr_mul coefficient el))
    (combine cs (map (fun i => fr_mul (fr_pow tau i) fr1) (seq s n))) acc
  = fr_add acc (fr_mul (fr_pow tau s) (horner cs tau)).
Proof.
  induction cs as [|c cs IH]; intros s n acc Hl.
  - destruct n; cbn; ring.
  - destruct n as [|n]; [simpl in Hl; lia|].
    cbn [seq map combine fold_left]. rewrite IH by (simpl in Hl; lia).
    cbn [fr_pow horner]. ring.
Qed.

Lemma length_suffix_values (l : list Fr) (z : Fr) : length (suffix_values l z) = length l.
Proof. induction l as [|a l IH]; cbn [suffix_values length]; [reflexivity | rewrite IH; reflexivity]. Qed.

Section Shapes.
Context {C : CurveLib}.

Lemma setup_internal_shape (tau : list Byte.byte) (degree : N) (k : KZG) :
  setup_internal tau degree = Some (Ok k) ->
  points_in_g1 (kzg_public_parameter k)
    = map (fun i => power_point (from_bytes_be tau) (N.of_nat i))
        (seq 0 (S (N.to_nat degree))) /\
  point_in_g2 (kzg_public_parameter k) = p2_mul (fr_of_Z (from_bytes_be tau)) p2_generator.
Proof.
  rewrite setup_internal_eq.
  destruct (curve_order <? from_bytes_be tau); [discriminate|].
  destruct (from_bytes_be tau <? curve_order); [|discriminate].
  intros H. injection H as <-. split; reflexivity.
Qed.

Lemma commit_shape (pp : PP) (p : Polynomial) (c : Commitment) :
  commit pp p = Ok c ->
  c = {| element := fold_left (fun acc '(coefficient, el) =>
                                 p1_add acc (p1_mul coefficient el))
                      (combine (coefficients p) (points_in_g1 pp)) p1_default;
         polynomial := p; public_parameter := pp |}.
Proof. unfold commit. intros H. injection H as <-. reflexivity. Qed.

End Shapes.

(** Completeness of the scheme, in the group library where each point is
    its discrete logarithm: for a setup with a 32-bit degree, a non-empty
    polynomial [f] no longer than the basis, its commitment and a point
    [z], [open_at] returns an opening, and [verify] accepts it exactly when
    [evalaute f z] is the value of [f] at [z] (Horner's rule). *)
Theorem verify_open_at_iff (tau : list Byte.byte) (degree : N) (k : @KZG DlogCurve)
    (f : list Fr) (z : Fr) (c : @Commitment DlogCurve) :
  setup_internal tau degree = Some (Ok k) -> (degree < 2 ^ 32)%N -> f <> [] ->
  (length f <= S (N.to_nat degree))%nat ->
  commit (kzg_public_parameter k) (from_coefficients f) = Ok c ->
  exists o, open_at c z = Some (Ok o) /\
    (verify o z c = true <-> evalaute (from_coefficients f) z = Some (horner f z)).
Proof.
  intros Hs Hdeg Hf Hl Hc.
  apply commit_shape in Hc. subst c.
  apply setup_internal_shape in Hs. destruct Hs as [Hpts Hg2].
  destruct k as [[pts g2]]. cbn [kzg_public_parameter points_in_g1 point_in_g2] in *.
  subst g2.
  set (t := from_bytes_be tau) in *.
  assert (Hpts' : pts = map (fun i => fr_mul (fr_pow (fr_of_Z t) i) fr1)
                          (seq 0 (S (N.to_nat degree)))).
  { rewrite Hpts. apply map_ext_in. intros i Hi. apply in_seq in Hi.
    rewrite power_point_low by lia.
    change (@p1_mul DlogCurve) with fr_mul. change (@p1_generator DlogCurve) with fr1.
    rewrite nat_N_Z, fr_of_Z_pow. reflexivity. }
  clear Hpts.
  destruct f as [|c0 f']; [congruence|].
  unfold open_at. cbn [polynomial public_parameter].
  change (evalaute (from_coefficients (c0 :: f')) z) with (Some (evalaute_loop f' c0 z)).
  cbn [obind]. rewrite compute_quotient_linear by discriminate. cbn [obind tl].
  unfold commit. eexists. split; [reflexivity|].
  unfold verify. cbn [value proof element public_parameter point_in_g2 points_in_g1
                      coefficients from_coefficients].
  change (@p1_add DlogCurve) with fr_add. change (@p1_neg DlogCurve) with fr_neg.
  change (@p1_mul DlogCurve) with fr_mul. change (@p1_generator DlogCurve) with fr1.
  change (@p1_default DlogCurve) with fr0.
  change (@p2_add DlogCurve) with fr_add. change (@p2_neg DlogCurve) with fr_neg.
  change (@p2_mul DlogCurve) with fr_mul. change (@p2_generator DlogCurve) with fr1.
  change (@verify_pairings DlogCurve)
    with (fun a1 a2 b1 b2 => fr_eqb (fr_mul a1 a2) (fr_mul b1 b2)).
  cbv beta. rewrite fr_eqb_spec, Hpts'.
  rewrite !commit_fold_powers
    by (rewrite ?length_suffix_values; simpl length in *; lia).
  pose proof (reconstruct_suffix_values f' c0 z) as HR.
  apply (f_equal (fun l => horner l (fr_of_Z t))) in HR. cbv beta in HR.
  unfold reconstruct in HR. rewrite horner_poly_add, horner_poly_mul in HR.
  cbn [horner fr_pow] in HR |- *.
  revert HR.
  generalize (horner (suffix_values f' z) (fr_of_Z t)) as Q.
  generalize (horner f' (fr_of_Z t)) as hT.
  generalize (horner f' z) as hz.
  generalize (evalaute_loop f' c0 z) as v.
  generalize (fr_of_Z t) as T.
  intros T v hz hT Q HR.
  split.
  - intros H. f_equal.
    transitivity (fr_add v (fr_sub
      (fr_mul (fr_add (fr_add fr0 (fr_mul fr1 (fr_add c0 (fr_mul T hT))))
                 (fr_neg (fr_mul v fr1))) fr1)
      (fr_mul (fr_add fr0 (fr_mul fr1 Q)) (fr_add (fr_mul T fr1) (fr_neg (fr_mul z fr1)))))).
    + rewrite H. ring.
    + rewrite <- HR. ring.
  - intros H. injection H as Hv. rewrite Hv, <- HR. ring.
Qed.

Lemma verify_open_at_iff_witness :
  setup_internal zero_tau 2 = Some (Ok example_kzg) /\ (2 < 2 ^ 32)%N /\ fs [0; 1] <> [] /\
  Nat.le (length (fs [0; 1])) (S (N.to_nat 2)) /\
  commit (kzg_public_parameter example_kzg) (from_coefficients (fs [0; 1]))
    = Ok example_commitment /\
  exists o, open_at example_commitment (from_u64 15) = Some (Ok o) /\
    (verify o (from_u64 15) example_commitment = true <->
     evalaute (from_coefficients (fs [0; 1])) (from_u64 15)
     = Some (horner (fs [0; 1]) (from_u64 15))).
Proof.
  assert (Hs : setup_internal zero_tau 2 = Some (Ok example_kzg)).
  { rewrite setup_internal_lt by (vm_compute; reflexivity).
    unfold example_kzg. do 4 f_equal. }
  assert (Hc : commit (kzg_public_parameter example_kzg) (from_coefficients (fs [0; 1]))
               = Ok example_commitment).
  { unfold commit, example_commitment. do 2 f_equal. }
  split; [exact Hs|]. split; [reflexivity|]. split; [discriminate|].
  split; [simpl; lia|]. split; [exact Hc|].
  apply (verify_open_at_iff zero_tau 2 example_kzg (fs [0; 1]) (from_u64 15)
           example_commitment Hs); [reflexivity | discriminate | simpl; lia | exact Hc].
Defined.

(** *** Display *)

Lemma fmt_loop_app (fr_debug : Fr -> string) (cs : list Fr) (c : Fr) : forall i s,
  fmt_loop fr_debug (cs ++ [c]) i s
  = let s' := fmt_loop fr_debug cs i s in
    if (i + length cs =? 0)%nat then (s' ++ fr_debug c)%string
    else (s' ++ " + " ++ fr_debug c ++ "x^" ++ usize_debug (i + length cs))%string.
Proof.
  induction cs as [|c' cs IH]; intros i s.
  - cbn [app fmt_loop length]. rewrite Nat.add_0_r. reflexivity.
  - cbn [app fmt_loop length]. rewrite IH.
    replace (S i + length cs)%nat with (i + S (length cs))%nat by lia.
    reflexivity.
Qed.

(** [Display] writes nothing for the empty polynomial, the first
    coefficient alone, and then one [" + {c:?}x^{i}"] term per further
    coefficient, with its index [i] as the exponent. *)
Theorem fmt_terms (fr_debug : Fr -> string) (c0 c : Fr) (cs : list Fr) :
  fmt fr_debug (from_coefficients []) = EmptyString /\
  fmt fr_debug (from_coefficients [c0]) = fr_debug c0 /\
  fmt fr_debug (from_coefficients (c0 :: cs ++ [c]))
  = (fmt fr_debug (from_coefficients (c0 :: cs)) ++ " + " ++ fr_debug c ++ "x^"
       ++ usize_debug (S (length cs)))%string.
Proof.
  split; [reflexivity|]. split; [reflexivity|].
  unfold fmt. cbn [coefficients from_coefficients].
  change (c0 :: cs ++ [c]) with ((c0 :: cs) ++ [c]).
  rewrite fmt_loop_app. reflexivity.
Qed.

Example fmt_ex :
  fmt (fun c => usize_debug (Z.to_nat (fr_val c))) (from_coefficients (fs [1; 3; 2]))
  = "1 + 3x^1 + 2x^2"%string.
Proof. vm_compute. reflexivity. Qed.
